(** * tl::function_ref: a non-owning reference to a callable

    A verification model of [function_ref.hpp].  The header has two layers
    and so has this file:

    - a compile-time layer (namespace [tl::detail]): [enable_if_t], the two
      [invoke] overloads, [invoke_result_t] and the trait [is_invocable_r].
      Template instantiation is a partial function on C++ types; a
      substitution failure is the value [None].
    - a run-time layer (class [function_ref<R(Args...)>] and the free
      functions after it): two pointer fields, constructors, assignments,
      [swap], [operator bool], [operator()] and the comparisons with
      [nullptr], as state-passing functions over a store of objects. *)

From stdpp Require Import gmap list.

(** ** Compile-time layer *)

(** What the header takes from the language and from [<type_traits>]:
    the C++ types, and the type of a call expression when it is
    well-formed. *)
Class TypeSystem := {
  ty : Type;
  ty_eq_dec :: EqDecision ty;
  (** [std::decay<T>::type] *)
  decay : ty → ty;
  (** [T &&], with reference collapsing *)
  add_rvalue_reference : ty → ty;
  (** [std::is_member_pointer<T>] *)
  is_member_pointer : ty → bool;
  (** [decltype(std::mem_fn(f)(std::forward<Args>(args)...))] for [f] of
      type [Fn]; [None] when the expression is ill-formed *)
  mem_fn_call_type : ty → list ty → option ty;
  (** [decltype(std::forward<Fn>(f)(std::forward<Args>(args)...))];
      [None] when the expression is ill-formed *)
  call_type : ty → list ty → option ty;
  (** the class type [function_ref<R(Args...)>] *)
  function_ref_type : ty → list ty → ty;
  (** whether argument-dependent lookup on the unqualified call
      [invoke(std::declval<F>(), std::declval<Us>()...)] of lines 60-62
      also finds [std::invoke], which [<functional>] declares from C++17
      on: namespace [std] is then associated with [F] or with one of [Us] *)
  adl_finds_std_invoke : ty → list ty → bool;
  (** the type of [std::invoke(std::declval<F>(), std::declval<Us>()...)];
      [None] when that candidate is not viable *)
  std_invoke_type : ty → list ty → option ty;
}.

Section Traits.
Context `{TS : TypeSystem}.

(** [enable_if_t<E, T>]: names [T] when [E] holds, and is a substitution
    failure otherwise (lines 31-32). *)
Definition enable_if_t {A : Type} (E : bool) (T : A) : option A :=
  if E then Some T else None.

(** [std::is_same<T, U>::value] *)
Definition is_same (T U : ty) : bool := bool_decide (T = U).

(** First overload of [invoke] (lines 38-45): enabled for member pointers,
    its return type is that of the [std::mem_fn] call. *)
Definition invoke_member (Fn : ty) (As : list ty) : option ty :=
  _ ← enable_if_t (is_member_pointer (decay Fn)) tt;
  mem_fn_call_type Fn As.

(** Second overload of [invoke] (lines 47-53): enabled for everything that
    is not a member pointer, its return type is that of the plain call. *)
Definition invoke_plain (Fn : ty) (As : list ty) : option ty :=
  _ ← enable_if_t (negb (is_member_pointer (decay Fn))) tt;
  call_type Fn As.

(** The candidates of the unqualified call [invoke(std::declval<F>(),
    std::declval<Us>()...)] of lines 60-62: the two templates of the
    namespace, found by ordinary lookup, and [std::invoke] when
    argument-dependent lookup finds it.  Each is given with the type of the
    call when it is viable. *)
Definition invoke_candidates (F : ty) (Us : list ty) : list (option ty) :=
  invoke_member F Us :: invoke_plain F Us ::
  (if adl_finds_std_invoke F Us then [std_invoke_type F Us] else []).

(** [decltype(invoke(std::declval<F>(), std::declval<Us>()...))]: overload
    resolution over the candidates.  All of them are templates with the
    parameters [(Fn &&, Args &&...)], so none is better than another: the
    call is well-formed when exactly one is viable, and ill-formed when
    none is or when two are. *)
Definition invoke_type (F : ty) (Us : list ty) : option ty :=
  match omap id (invoke_candidates F Us) with
  | [T] => Some T
  | _ => None
  end.

(** [invoke_result_impl<F, void, Us...>] (lines 56-63).  The primary
    template is declared and never defined; the partial specialisation
    matches when the [invoke] expression is well-formed, and has the member
    [type].  The result is the member [type] of the selected template, if it
    has one. *)
Definition invoke_result_impl (F : ty) (Us : list ty) : option ty :=
  match invoke_type F Us with
  | Some T => Some T
  | None => None
  end.

(** [invoke_result_t<F, Us...>] (lines 65-69):
    [typename invoke_result_impl<F, void, Us...>::type]. *)
Definition invoke_result_t (F : ty) (Us : list ty) : option ty :=
  invoke_result_impl F Us.

(** [is_invocable_r_impl<B, R, F, Args...>::value] (lines 72-76): the
    primary template derives from [std::false_type], the specialisation for
    [true] from [std::true_type]. *)
Definition is_invocable_r_impl (B : bool) : bool :=
  match B with
  | true => true
  | false => false
  end.

(** [is_invocable_r<R, F, Args...>::value] (lines 78-81).  The alias
    mentions [invoke_result_t<F, Args...>]; when that has no member [type]
    the alias itself fails to substitute. *)
Definition is_invocable_r (R F : ty) (As : list ty) : option bool :=
  T ← invoke_result_t F As;
  Some (is_invocable_r_impl (is_same T R)).




End Traits.

(** ** Run-time layer *)

(** Objects live at addresses; a null pointer is [None]. *)
Definition addr := positive.

(** The template argument [F] deduced for a forwarding reference [F &&f]:
    [T &] when the argument is an lvalue of type [T], [T] when it is an
    rvalue. *)
Inductive fwd (T : Type) :=
| lref (t : T)
| rval (t : T).
Arguments lref {T} t.
Arguments rval {T} t.

(** [std::remove_reference<F>::type] *)
Definition remove_reference {T : Type} (F : fwd T) : T :=
  match F with
  | lref t => t
  | rval t => t
  end.

(** One signature [R(Args...)] and the callables of a program: their object
    types, the representation of their objects, and what calling one does to
    the objects outside the reference ([None]: the call itself is
    undefined).  [Args] is the tuple of the arguments, passed on as it is. *)
Class Callables := {
  R : Type;
  Args : Type;
  cty : Type;
  cty_eq_dec :: EqDecision cty;
  val : Type;
  (** [std::is_member_pointer<decay_t<Fn>>] *)
  member_pointer : cty → bool;
  (** [std::forward<Fn>(f)(std::forward<Args>(args)...)] with [f] the
      object at the given address *)
  call_op : fwd cty → addr → Args →
            gmap addr (cty * val) → option (R * gmap addr (cty * val));
  (** [std::mem_fn(f)(std::forward<Args>(args)...)] *)
  mem_fn_op : fwd cty → addr → Args →
              gmap addr (cty * val) → option (R * gmap addr (cty * val));
  (** the object type is [const]- or [volatile]-qualified *)
  cv_qualified : cty → bool;
  (** the return type that [auto] deduces for a lambda returning an
      expression of type [R] is [R] itself: it is not when [R] is a
      reference type, the deduction drops the reference *)
  auto_is_R : bool;
}.

Section FunctionRef.
Context `{C : Callables}.

(** The captureless lambdas assigned to [callback_]: the one of the
    converting constructor (lines 99-104), instantiated per [F], and the one
    of the assignment from a callable (lines 121-124), which names the type
    [F *] and so exists only for an [F] that is not a reference. *)
Inductive lambda :=
| ctor_lambda (F : fwd cty)
| assign_lambda (T : cty).

(** [class function_ref<R(Args...)>], lines 138-140. *)
Record function_ref := {
  obj_ : option addr;
  callback_ : option lambda;
}.

(** The program state: the [function_ref] objects, the objects they may be
    bound to (each with its type), and the log of the callables that
    [detail::invoke] has called. *)
Record world := {
  refs : gmap addr function_ref;
  ext : gmap addr (cty * val);
  calls : list addr;
}.

Definition set_refs (w : world) (h : gmap addr function_ref) : world :=
  {| refs := h; ext := ext w; calls := calls w |}.

Inductive fault :=
| undefined_behaviour
| ill_formed
| out_of_fuel.

Inductive outcome (A : Type) :=
| Ok (a : A) (w : world)
| Stuck (e : fault).
Arguments Ok {A} a w.
Arguments Stuck {A} e.

Definition M (A : Type) : Type := world → outcome A.

#[global] Instance M_ret : MRet M := λ A a w, Ok a w.

#[global] Instance M_bind : MBind M := λ A B k m w,
  match m w with
  | Ok a w' => k a w'
  | Stuck e => Stuck e
  end.

Definition stuck {A : Type} (e : fault) : M A := λ _, Stuck e.

(** Control reaches the closing brace of a function that returns a value,
    without a [return] statement: the behaviour is undefined. *)
Definition flows_off_end {A : Type} : M A := stuck undefined_behaviour.

(** *** Field access through a reference to a [function_ref] *)

Definition load_obj (l : addr) : M (option addr) := λ w,
  match refs w !! l with
  | Some r => Ok (obj_ r) w
  | None => Stuck undefined_behaviour
  end.

Definition load_callback (l : addr) : M (option lambda) := λ w,
  match refs w !! l with
  | Some r => Ok (callback_ r) w
  | None => Stuck undefined_behaviour
  end.

Definition store_obj (l : addr) (v : option addr) : M unit := λ w,
  match refs w !! l with
  | Some r =>
      Ok tt (set_refs w (<[l := {| obj_ := v; callback_ := callback_ r |}]> (refs w)))
  | None => Stuck undefined_behaviour
  end.

Definition store_callback (l : addr) (v : option lambda) : M unit := λ w,
  match refs w !! l with
  | Some r =>
      Ok tt (set_refs w (<[l := {| obj_ := obj_ r; callback_ := v |}]> (refs w)))
  | None => Stuck undefined_behaviour
  end.

(** Start of the lifetime of the object at [this], with its members
    initialised. *)
Definition construct (this : addr) (r : function_ref) : M unit := λ w,
  Ok tt (set_refs w (<[this := r]> (refs w))).

(** *** detail::invoke and the lambdas *)

(** [detail::invoke(std::forward<F>(f), args...)] at run time, lines 38-53:
    the overload is chosen by [is_member_pointer<decay_t<Fn>>]. *)
Definition invoke (F : fwd cty) (f : addr) (a : Args) : M R := λ w,
  let call := if member_pointer (remove_reference F) then mem_fn_op else call_op in
  match call F f a (ext w) with
  | Some (r, e) => Ok r {| refs := refs w; ext := e; calls := calls w ++ [f] |}
  | None => Stuck undefined_behaviour
  end.

(** Dereferencing [reinterpret_cast<T *>(obj)]: the object of type [T] at
    [obj]. *)
Definition deref (T : cty) (obj : option addr) : M addr := λ w,
  match obj with
  | None => Stuck undefined_behaviour
  | Some p =>
      match ext w !! p with
      | Some (T', _) => if decide (T' = T) then Ok p w else Stuck undefined_behaviour
      | None => Stuck undefined_behaviour
      end
  end.

(** The bodies of the two lambdas.  [std::add_pointer<F>::type] is
    [remove_reference_t<F> *]. *)
Definition run_lambda (c : lambda) (obj : option addr) (a : Args) : M R :=
  match c with
  | ctor_lambda F => f ← deref (remove_reference F) obj; invoke F f a
  | assign_lambda T => f ← deref T obj; invoke (rval T) f a
  end.

(** *** Constructors *)

(** [function_ref() = default], line 89, with the default member
    initialisers of lines 139-140. *)
Definition function_ref_default (this : addr) : M unit :=
  construct this {| obj_ := None; callback_ := None |}.

(** [function_ref(std::nullptr_t) : function_ref() {}], line 90. *)
Definition function_ref_nullptr (this : addr) : M unit :=
  function_ref_default this.

(** [function_ref(const function_ref &) = default], line 91. *)
Definition function_ref_copy (this rhs : addr) : M unit :=
  o ← load_obj rhs;
  c ← load_callback rhs;
  construct this {| obj_ := o; callback_ := c |}.

(** Instantiation of the converting constructor for [F].  Line 98 is
    [reinterpret_cast<void *>(std::addressof(f))], which may not cast away
    the qualifiers of a [const] or [volatile] callable; lines 99-104 assign
    to [callback_] a lambda whose return type is deduced, and the lambda
    converts to the type of [callback_] only when that type is [R]. *)
Definition ctor_lambda_for (F : fwd cty) : option lambda :=
  if cv_qualified (remove_reference F) then None
  else if auto_is_R then Some (ctor_lambda F)
  else None.

(** [function_ref(F &&f)], lines 97-105: [obj_] from the address of [f],
    [callback_] from its default member initialiser and then assigned in the
    body.  A use with an [F] for which the constructor has no well-formed
    instance is not a program. *)
Definition function_ref_from (F : fwd cty) (f this : addr) : M unit :=
  match ctor_lambda_for F with
  | Some c =>
      construct this {| obj_ := Some f; callback_ := None |};;
      store_callback this (Some c)
  | None => stuck ill_formed
  end.

(** *** Assignments *)

(** The statements of [operator=(const function_ref &rhs)], lines
    108-109. *)
Definition operator_assign_body (this rhs : addr) : M unit :=
  o ← load_obj rhs;
  store_obj this o;;
  c ← load_callback rhs;
  store_callback this c.

(** [operator=(const function_ref &rhs)], lines 107-110: declared to return
    [function_ref &], and the body ends without a [return] statement.  This
    is the overload taken for a [const] right-hand side; for a non-const
    lvalue, overload resolution prefers [operator=(F &&)] below with [F] the
    type [function_ref &]. *)
Definition operator_assign (this rhs : addr) : M addr :=
  operator_assign_body this rhs;;
  flows_off_end.

(** The statements of [operator=(std::nullptr_t)], lines 112-113. *)
Definition operator_assign_nullptr_body (this : addr) : M unit :=
  store_obj this None;;
  store_callback this None.

(** [operator=(std::nullptr_t)], lines 111-114: declared to return
    [function_ref &], and the body ends without a [return] statement. *)
Definition operator_assign_nullptr (this : addr) : M addr :=
  operator_assign_nullptr_body this;;
  flows_off_end.

(** Instantiation of [operator=(F &&)] for [F].  The lambda of lines
    121-124 names [F *], a pointer to a reference when [F] is [T &]; line
    120 converts [std::addressof(f)] to [void *] implicitly, which a pointer
    to a [const] or [volatile] object does not; and the lambda converts to
    the type of [callback_] only when its deduced return type is [R]. *)
Definition assign_lambda_for (F : fwd cty) : option lambda :=
  match F with
  | lref _ => None
  | rval T =>
      if cv_qualified T then None
      else if auto_is_R then Some (assign_lambda T)
      else None
  end.

(** The statements of [operator=(F &&f)], lines 120-124. *)
Definition operator_assign_from_body (cb : lambda) (f this : addr) : M unit :=
  store_obj this (Some f);;
  store_callback this (Some cb).

(** [operator=(F &&f)], lines 119-125: declared to return [function_ref &],
    and the body ends without a [return] statement; [None] when the
    instantiation is ill-formed. *)
Definition operator_assign_from (F : fwd cty) (f this : addr)
  : option (M addr) :=
  cb ← assign_lambda_for F;
  Some (operator_assign_from_body cb f this;;
        flows_off_end).

(** *** swap, operator bool, operator() *)

(** [std::swap(x.obj_, y.obj_)]: [tmp = x; x = y; y = tmp]. *)
Definition std_swap_obj (x y : addr) : M unit :=
  tmp ← load_obj x;
  v ← load_obj y;
  store_obj x v;;
  store_obj y tmp.

Definition std_swap_callback (x y : addr) : M unit :=
  tmp ← load_callback x;
  v ← load_callback y;
  store_callback x v;;
  store_callback y tmp.

(** [function_ref::swap], lines 127-130. *)
Definition swap (this rhs : addr) : M unit :=
  std_swap_obj this rhs;;
  std_swap_callback this rhs.

(** The free [swap], lines 143-147. *)
Definition free_swap (lhs rhs : addr) : M unit :=
  swap lhs rhs.

(** [explicit operator bool], line 132. *)
Definition operator_bool (this : addr) : M bool :=
  o ← load_obj this;
  mret (bool_decide (o ≠ None)).

(** [operator()], lines 134-136: a call through [callback_]. *)
Definition operator_call (this : addr) (a : Args) : M R :=
  cb ← load_callback this;
  o ← load_obj this;
  match cb with
  | Some c => run_lambda c o a
  | None => stuck undefined_behaviour
  end.

(** *** Comparison with nullptr, lines 149-171

    Each body is the expression [f == nullptr] (or [f != nullptr]) on a
    [function_ref] and [nullptr], in that order, and the only overload that
    takes these operands in that order is the first (the third) of the four:
    the call depth available is the fuel. *)
Fixpoint operator_eq_ref_null (fuel : nat) (f : addr) : M bool :=
  match fuel with
  | O => stuck out_of_fuel
  | S n => operator_eq_ref_null n f
  end.

Definition operator_eq_null_ref (fuel : nat) (f : addr) : M bool :=
  match fuel with
  | O => stuck out_of_fuel
  | S n => operator_eq_ref_null n f
  end.

Fixpoint operator_ne_ref_null (fuel : nat) (f : addr) : M bool :=
  match fuel with
  | O => stuck out_of_fuel
  | S n => operator_ne_ref_null n f
  end.

Definition operator_ne_null_ref (fuel : nat) (f : addr) : M bool :=
  match fuel with
  | O => stuck out_of_fuel
  | S n => operator_ne_ref_null n f
  end.

(** What the comparisons are meant to report: emptiness of the reference. *)
Definition is_empty (this : addr) (w : world) : option bool :=
  r ← refs w !! this;
  Some (bool_decide (obj_ r = None)).

(** *** Invariant and operations *)

(** The two fields are null together. *)
Definition wf (r : function_ref) : Prop :=
  obj_ r = None ↔ callback_ r = None.

Definition all_wf (w : world) : Prop :=
  ∀ l r, refs w !! l = Some r → wf r.

(** The operations of the class and of the free [swap]. *)
Inductive op :=
| op_default (this : addr)
| op_nullptr (this : addr)
| op_copy (this rhs : addr)
| op_from (F : fwd cty) (f this : addr)
| op_assign (this rhs : addr)
| op_assign_nullptr (this : addr)
| op_assign_from (F : fwd cty) (f this : addr)
| op_swap (this rhs : addr)
| op_free_swap (lhs rhs : addr)
| op_bool (this : addr)
| op_call (this : addr) (a : Args).

Definition exec (o : op) : M unit :=
  match o with
  | op_default this => function_ref_default this
  | op_nullptr this => function_ref_nullptr this
  | op_copy this rhs => function_ref_copy this rhs
  | op_from F f this => function_ref_from F f this
  | op_assign this rhs => operator_assign this rhs;; mret tt
  | op_assign_nullptr this => operator_assign_nullptr this;; mret tt
  | op_assign_from F f this =>
      match operator_assign_from F f this with
      | Some m => m;; mret tt
      | None => stuck ill_formed
      end
  | op_swap this rhs => swap this rhs
  | op_free_swap lhs rhs => free_swap lhs rhs
  | op_bool this => operator_bool this;; mret tt
  | op_call this a => operator_call this a;; mret tt
  end.


(** No [function_ref] object exists yet. *)
Definition initial (e : gmap addr (cty * val)) : world :=
  {| refs := ∅; ext := e; calls := [] |}.

(** An object of the type [F] refers to is alive at [f]. *)
Definition alive (w : world) (f : addr) (F : fwd cty) : Prop :=
  ∃ v, ext w !! f = Some (remove_reference F, v).

(** What a caller observes of a call: its result, the objects outside the
    references and the log after it; or how it failed. *)
Definition behaviour {A : Type} (o : outcome A)
  : fault + (A * gmap addr (cty * val) * list addr) :=
  match o with
  | Ok a w => inr (a, ext w, calls w)
  | Stuck e => inl e
  end.

(** The same outcome, over other [function_ref] objects. *)
Definition with_refs {A : Type} (h : gmap addr function_ref) (o : outcome A)
  : outcome A :=
  match o with
  | Ok a w => Ok a (set_refs w h)
  | Stuck e => Stuck e
  end.

(** The two states of a reference. *)
Definition empty_ref : function_ref :=
  {| obj_ := None; callback_ := None |}.

Definition bound_ref (f : addr) (c : lambda) : function_ref :=
  {| obj_ := Some f; callback_ := Some c |}.

End FunctionRef.

Arguments Ok {C A} a w.
Arguments Stuck {C A} e.

(** ** Two concrete programs *)

(** A small type system: [int]; a closure type callable as [int(int)];
    rvalue references; [function_ref<int(int)>], callable as [int(int)] by
    its [operator()] of line 134; [std::function<int(int)>], with which
    namespace [std] is associated; a class [S] and the type of a pointer
    to a member function of [S] that takes an [int] and returns an
    [int]. *)
Inductive cxx_ty :=
| Int
| Closure
| RRef (T : cxx_ty)
| FunctionRef
| StdFunction
| Class
| MemFn.

#[global] Instance cxx_ty_eq_dec : EqDecision cxx_ty.
Proof. solve_decision. Defined.

Fixpoint cxx_decay (T : cxx_ty) : cxx_ty :=
  match T with
  | RRef U => cxx_decay U
  | _ => T
  end.

Definition cxx_add_rvalue_reference (T : cxx_ty) : cxx_ty :=
  match T with
  | RRef _ => T
  | _ => RRef T
  end.

Definition cxx_is_member_pointer (T : cxx_ty) : bool :=
  match T with
  | MemFn => true
  | _ => false
  end.

Definition cxx_call_type (F : cxx_ty) (As : list cxx_ty) : option cxx_ty :=
  match cxx_decay F, As with
  | Closure, [A] | FunctionRef, [A] | StdFunction, [A] =>
      if decide (cxx_decay A = Int) then Some Int else None
  | _, _ => None
  end.

Definition cxx_mem_fn_call_type (F : cxx_ty) (As : list cxx_ty) : option cxx_ty :=
  match cxx_decay F, As with
  | MemFn, [Obj; A] =>
      if decide (cxx_decay Obj = Class) then
        if decide (cxx_decay A = Int) then Some Int else None
      else None
  | _, _ => None
  end.

Definition cxx_adl_finds_std_invoke (F : cxx_ty) (As : list cxx_ty) : bool :=
  match cxx_decay F with
  | StdFunction => true
  | _ => false
  end.

Definition cxx_std_invoke_type (F : cxx_ty) (As : list cxx_ty) : option cxx_ty :=
  if cxx_is_member_pointer (cxx_decay F)
  then cxx_mem_fn_call_type F As else cxx_call_type F As.

Definition cxx : TypeSystem := {|
  ty := cxx_ty;
  decay := cxx_decay;
  add_rvalue_reference := cxx_add_rvalue_reference;
  is_member_pointer := cxx_is_member_pointer;
  mem_fn_call_type := cxx_mem_fn_call_type;
  call_type := cxx_call_type;
  function_ref_type := λ _ _, FunctionRef;
  adl_finds_std_invoke := cxx_adl_finds_std_invoke;
  std_invoke_type := cxx_std_invoke_type;
|}.

(** The signature [int(int)] with four kinds of callables: a closure that
    adds one, a closure that doubles, a variable holding a pointer to a
    function, which may be null, and a [const] closure that adds one. *)
Inductive demo_cty :=
| PlusOne
| TimesTwo
| FnPtr
| ConstPlusOne.

#[global] Instance demo_cty_eq_dec : EqDecision demo_cty.
Proof. solve_decision. Defined.

Inductive demo_val :=
| no_state
| fn_pointer (target : option (Z → Z)).

Definition demo_call (F : fwd demo_cty) (f : addr) (x : Z)
    (e : gmap addr (demo_cty * demo_val))
  : option (Z * gmap addr (demo_cty * demo_val)) :=
  match e !! f with
  | Some (PlusOne, _) => Some ((x + 1)%Z, e)
  | Some (TimesTwo, _) => Some ((x * 2)%Z, e)
  | Some (FnPtr, fn_pointer (Some g)) => Some (g x, e)
  | Some (ConstPlusOne, _) => Some ((x + 1)%Z, e)
  | _ => None
  end.

Definition demo_cv_qualified (T : demo_cty) : bool :=
  match T with
  | ConstPlusOne => true
  | _ => false
  end.

Definition demo : Callables := {|
  R := Z;
  Args := Z;
  cty := demo_cty;
  val := demo_val;
  member_pointer := λ _, false;
  call_op := demo_call;
  mem_fn_op := λ _ _ _ _, None;
  cv_qualified := demo_cv_qualified;
  auto_is_R := true;
|}.

(** The same callables under the signature [int &(int)]: the result type
    is a reference. *)
Definition demo_ref_result : Callables := {|
  R := Z;
  Args := Z;
  cty := demo_cty;
  val := demo_val;
  member_pointer := λ _, false;
  call_op := demo_call;
  mem_fn_op := λ _ _ _ _, None;
  cv_qualified := demo_cv_qualified;
  auto_is_R := false;
|}.

(** The callables: the two closures at addresses 10 and 11, a null
    function pointer variable at 12, and the [const] closure at 13. *)
Definition demo_ext : gmap addr (demo_cty * demo_val) :=
  {[ 10%positive := (PlusOne, no_state);
     11%positive := (TimesTwo, no_state);
     12%positive := (FnPtr, fn_pointer None);
     13%positive := (ConstPlusOne, no_state) ]}.

Definition demo_bound (f : addr) (T : demo_cty) : function_ref (C := demo) :=
  bound_ref (C := demo) f (ctor_lambda (C := demo) (lref T)).

(** Two references at addresses 1 and 2, bound to the closures at 10 and
    11. *)
Definition demo_world : world (C := demo) :=
  @Build_world demo
    {[ 1%positive := demo_bound 10%positive PlusOne;
       2%positive := demo_bound 11%positive TimesTwo ]}
    demo_ext
    [].


(** [demo_world] after the closure at address 10 has been destroyed. *)
Definition demo_dangling : world (C := demo) :=
  @Build_world demo (refs demo_world) (delete 10%positive demo_ext) [].

(** ** What an operation may touch *)

Section Effects.
Context `{C : Callables}.

(** The [function_ref] objects an operation may write, as its signature
    says: the object it constructs or is called on, and for the swaps also
    the other operand, taken by non-const reference.  The right-hand side of
    a copy is a [const function_ref &]; [operator bool] and [operator()] are
    [const] members. *)
Definition footprint (o : op) : list addr :=
  match o with
  | op_default this => [this]
  | op_nullptr this => [this]
  | op_copy this _ => [this]
  | op_from _ _ this => [this]
  | op_assign this _ => [this]
  | op_assign_nullptr this => [this]
  | op_assign_from _ _ this => [this]
  | op_swap this rhs => [this; rhs]
  | op_free_swap lhs rhs => [lhs; rhs]
  | op_bool _ => []
  | op_call _ _ => []
  end.

(** The operation is [operator()]. *)
Definition is_call (o : op) : bool :=
  match o with
  | op_call _ _ => true
  | _ => false
  end.

(** A computation that, when it returns, has left the outside objects and
    the call log as they were. *)
Definition quiet {A : Type} (m : M A) : Prop :=
  ∀ w a w', m w = Ok a w' → ext w' = ext w ∧ calls w' = calls w.

(** A computation that, when it returns, has left every [function_ref]
    outside [S] as it was. *)
Definition writes_only {A : Type} (S : list addr) (m : M A) : Prop :=
  ∀ w a w', m w = Ok a w' → ∀ l, l ∉ S → refs w' !! l = refs w !! l.

End Effects.

(** ** Proof automation *)


(** ** Properties of the compile-time layer *)

Section TraitsProperties.
Context `{TS : TypeSystem}.

(** The two [invoke] templates are never both viable: their constraints
    are complementary. *)
Lemma invoke_overloads_exclusive (F : ty) (Us : list ty) :
  invoke_member F Us = None ∨ invoke_plain F Us = None.
Proof.
  unfold invoke_member, invoke_plain, enable_if_t.
  destruct (is_member_pointer (decay F)); simpl; auto.
Qed.

(** So, when argument-dependent lookup adds nothing, overload resolution is
    a choice on [is_member_pointer]. *)
Lemma invoke_type_by_kind (F : ty) (Us : list ty) :
  adl_finds_std_invoke F Us = false →
  invoke_type F Us =
  if is_member_pointer (decay F) then mem_fn_call_type F Us else call_type F Us.
Proof.
  intros Hadl.
  unfold invoke_type, invoke_candidates, invoke_member, invoke_plain, enable_if_t.
  rewrite Hadl.
  destruct (is_member_pointer (decay F)); simpl.
  - destruct (mem_fn_call_type F Us); reflexivity.
  - destruct (call_type F Us); reflexivity.
Qed.

(** With [std::invoke] among the candidates and viable, a call that one of
    the two templates accepts is ambiguous. *)
Lemma invoke_type_ambiguous (F : ty) (Us : list ty) :
  adl_finds_std_invoke F Us = true →
  is_Some (if is_member_pointer (decay F)
           then mem_fn_call_type F Us else call_type F Us) →
  is_Some (std_invoke_type F Us) →
  invoke_type F Us = None.
Proof.
  intros Hadl [T HT] [T' HT'].
  unfold invoke_type, invoke_candidates, invoke_member, invoke_plain, enable_if_t.
  rewrite Hadl, HT'.
  destruct (is_member_pointer (decay F)); simpl; rewrite HT; reflexivity.
Qed.

Lemma is_invocable_r_some (R F T : ty) (As : list ty) :
  invoke_type F As = Some T →
  is_invocable_r R F As = Some (bool_decide (T = R)).
Proof.
  intros HT. unfold is_invocable_r, invoke_result_t, invoke_result_impl.
  rewrite HT. simpl. unfold is_same.
  destruct (bool_decide (T = R)); reflexivity.
Qed.

Lemma is_invocable_r_none (R F : ty) (As : list ty) :
  invoke_type F As = None → is_invocable_r R F As = None.
Proof.
  intros HT. unfold is_invocable_r, invoke_result_t, invoke_result_impl.
  rewrite HT. reflexivity.
Qed.


End TraitsProperties.



(** ** Properties of the run-time layer *)

Section FunctionRefProperties.
Context `{C : Callables}.
Implicit Types (w : world) (r : function_ref) (h : gmap addr function_ref).
Implicit Types (l this rhs f : addr).

(** *** The monad *)

Lemma bind_Ok {A B : Type} (m : M A) (k : A → M B) w a w' :
  m w = Ok a w' → (m ≫= k) w = k a w'.
Proof. intros Hm. unfold mbind, M_bind. rewrite Hm. reflexivity. Qed.

Lemma bind_Stuck {A B : Type} (m : M A) (k : A → M B) w e :
  m w = Stuck e → (m ≫= k) w = Stuck e.
Proof. intros Hm. unfold mbind, M_bind. rewrite Hm. reflexivity. Qed.

Lemma bind_inv {A B : Type} (m : M A) (k : A → M B) w b w2 :
  (m ≫= k) w = Ok b w2 → ∃ a w1, m w = Ok a w1 ∧ k a w1 = Ok b w2.
Proof.
  unfold mbind, M_bind. destruct (m w) as [a w1|e]; [|discriminate].
  intros Hk. exists a, w1. split; [reflexivity|exact Hk].
Qed.

(** *** The store of references *)

Lemma set_refs_id w : set_refs w (refs w) = w.
Proof. destruct w. reflexivity. Qed.

Lemma set_refs_same w h : h = refs w → set_refs w h = w.
Proof. intros ->. apply set_refs_id. Qed.

Lemma set_refs_twice w h h' : set_refs (set_refs w h) h' = set_refs w h'.
Proof. reflexivity. Qed.

Lemma function_ref_eta r : {| obj_ := obj_ r; callback_ := callback_ r |} = r.
Proof. destruct r. reflexivity. Qed.

Lemma load_obj_Ok w l r :
  refs w !! l = Some r → load_obj l w = Ok (obj_ r) w.
Proof. intros Hl. unfold load_obj. rewrite Hl. reflexivity. Qed.

Lemma load_callback_Ok w l r :
  refs w !! l = Some r → load_callback l w = Ok (callback_ r) w.
Proof. intros Hl. unfold load_callback. rewrite Hl. reflexivity. Qed.

Lemma store_obj_Ok w l r v :
  refs w !! l = Some r →
  store_obj l v w =
  Ok tt (set_refs w (<[l := {| obj_ := v; callback_ := callback_ r |}]> (refs w))).
Proof. intros Hl. unfold store_obj. rewrite Hl. reflexivity. Qed.

Lemma store_callback_Ok w l r v :
  refs w !! l = Some r →
  store_callback l v w =
  Ok tt (set_refs w (<[l := {| obj_ := obj_ r; callback_ := v |}]> (refs w))).
Proof. intros Hl. unfold store_callback. rewrite Hl. reflexivity. Qed.

(** *** What each operation does to the store *)

Lemma function_ref_default_spec this w :
  function_ref_default this w = Ok tt (set_refs w (<[this := empty_ref]> (refs w))).
Proof. reflexivity. Qed.

Lemma ctor_lambda_for_Some F :
  cv_qualified (remove_reference F) = false → auto_is_R = true →
  ctor_lambda_for F = Some (ctor_lambda F).
Proof. intros Hcv Hauto. unfold ctor_lambda_for. rewrite Hcv, Hauto. reflexivity. Qed.

Lemma ctor_lambda_for_None F :
  cv_qualified (remove_reference F) = true ∨ auto_is_R = false →
  ctor_lambda_for F = None.
Proof.
  unfold ctor_lambda_for. intros [Hcv|Hauto].
  - rewrite Hcv. reflexivity.
  - rewrite Hauto. destruct (cv_qualified (remove_reference F)); reflexivity.
Qed.


Lemma function_ref_from_spec F f this w :
  ctor_lambda_for F = Some (ctor_lambda F) →
  function_ref_from F f this w =
  Ok tt (set_refs w (<[this := bound_ref f (ctor_lambda F)]> (refs w))).
Proof.
  intros Hwf. unfold function_ref_from. rewrite Hwf.
  erewrite bind_Ok by reflexivity.
  erewrite store_callback_Ok by apply lookup_insert_eq.
  simpl. rewrite insert_insert_eq. reflexivity.
Qed.

Lemma function_ref_from_ill_formed F f this w :
  ctor_lambda_for F = None →
  function_ref_from F f this w = Stuck ill_formed.
Proof. intros Hwf. unfold function_ref_from. rewrite Hwf. reflexivity. Qed.

Lemma function_ref_copy_spec this rhs r w :
  refs w !! rhs = Some r →
  function_ref_copy this rhs w = Ok tt (set_refs w (<[this := r]> (refs w))).
Proof.
  intros Hr. unfold function_ref_copy.
  erewrite bind_Ok by (apply load_obj_Ok; exact Hr).
  erewrite bind_Ok by (apply load_callback_Ok; exact Hr).
  unfold construct. rewrite function_ref_eta. reflexivity.
Qed.

Lemma operator_assign_body_spec this rhs ra rb w :
  refs w !! this = Some ra → refs w !! rhs = Some rb →
  operator_assign_body this rhs w =
  Ok tt (set_refs w (<[this := rb]> (refs w))).
Proof.
  intros Ha Hb. unfold operator_assign_body.
  erewrite bind_Ok by (apply load_obj_Ok; exact Hb).
  erewrite bind_Ok by (apply store_obj_Ok; exact Ha).
  assert (Hcb : load_callback rhs
                  (set_refs w (<[this := {| obj_ := obj_ rb; callback_ := callback_ ra |}]> (refs w)))
                = Ok (callback_ rb)
                  (set_refs w (<[this := {| obj_ := obj_ rb; callback_ := callback_ ra |}]> (refs w)))).
  { unfold load_callback. simpl. destruct (decide (this = rhs)) as [->|Hne].
    - rewrite lookup_insert_eq. simpl. congruence.
    - rewrite lookup_insert_ne by exact Hne. rewrite Hb. reflexivity. }
  erewrite bind_Ok by exact Hcb.
  erewrite store_callback_Ok by apply lookup_insert_eq.
  simpl. rewrite insert_insert_eq, function_ref_eta. reflexivity.
Qed.

Lemma operator_assign_nullptr_body_spec this r w :
  refs w !! this = Some r →
  operator_assign_nullptr_body this w =
  Ok tt (set_refs w (<[this := empty_ref]> (refs w))).
Proof.
  intros Hr. unfold operator_assign_nullptr_body.
  erewrite bind_Ok by (apply store_obj_Ok; exact Hr).
  erewrite store_callback_Ok by apply lookup_insert_eq.
  simpl. rewrite insert_insert_eq. reflexivity.
Qed.

Lemma operator_assign_from_body_spec cb f this r w :
  refs w !! this = Some r →
  operator_assign_from_body cb f this w =
  Ok tt (set_refs w (<[this := bound_ref f cb]> (refs w))).
Proof.
  intros Hr. unfold operator_assign_from_body.
  erewrite bind_Ok by (apply store_obj_Ok; exact Hr).
  erewrite store_callback_Ok by apply lookup_insert_eq.
  simpl. rewrite insert_insert_eq. reflexivity.
Qed.


Lemma flows_off_end_after_Ok {A B : Type} (m : M A) w a w1 :
  m w = Ok a w1 →
  (m;; flows_off_end) w = (Stuck undefined_behaviour : outcome B).
Proof. intros Hm. unfold mbind, M_bind. rewrite Hm. reflexivity. Qed.

Lemma std_swap_obj_spec x y rx ry w :
  refs w !! x = Some rx → refs w !! y = Some ry →
  std_swap_obj x y w =
  Ok tt (set_refs w
           (<[y := {| obj_ := obj_ rx; callback_ := callback_ ry |}]>
              (<[x := {| obj_ := obj_ ry; callback_ := callback_ rx |}]> (refs w)))).
Proof.
  intros Hx Hy. unfold std_swap_obj.
  erewrite bind_Ok by (apply load_obj_Ok; exact Hx).
  erewrite bind_Ok by (apply load_obj_Ok; exact Hy).
  erewrite bind_Ok by (apply store_obj_Ok; exact Hx).
  destruct (decide (x = y)) as [->|Hne].
  - erewrite store_obj_Ok by apply lookup_insert_eq.
    simpl. replace ry with rx by congruence. reflexivity.
  - erewrite store_obj_Ok
      by (simpl; rewrite lookup_insert_ne by exact Hne; exact Hy).
    reflexivity.
Qed.

Lemma std_swap_callback_spec x y rx ry w :
  refs w !! x = Some rx → refs w !! y = Some ry →
  std_swap_callback x y w =
  Ok tt (set_refs w
           (<[y := {| obj_ := obj_ ry; callback_ := callback_ rx |}]>
              (<[x := {| obj_ := obj_ rx; callback_ := callback_ ry |}]> (refs w)))).
Proof.
  intros Hx Hy. unfold std_swap_callback.
  erewrite bind_Ok by (apply load_callback_Ok; exact Hx).
  erewrite bind_Ok by (apply load_callback_Ok; exact Hy).
  erewrite bind_Ok by (apply store_callback_Ok; exact Hx).
  destruct (decide (x = y)) as [->|Hne].
  - erewrite store_callback_Ok by apply lookup_insert_eq.
    simpl. replace ry with rx by congruence. reflexivity.
  - erewrite store_callback_Ok
      by (simpl; rewrite lookup_insert_ne by exact Hne; exact Hy).
    reflexivity.
Qed.

(** The member [swap] writes each object's two fields into the other. *)
Lemma swap_spec a b ra rb w :
  refs w !! a = Some ra → refs w !! b = Some rb →
  swap a b w = Ok tt (set_refs w (<[b := ra]> (<[a := rb]> (refs w)))).
Proof.
  intros Ha Hb. unfold swap.
  erewrite bind_Ok by (apply std_swap_obj_spec; [exact Ha|exact Hb]).
  destruct (decide (a = b)) as [->|Hne].
  - assert (ra = rb) as -> by congruence.
    erewrite std_swap_callback_spec by (simpl; apply lookup_insert_eq).
    simpl. rewrite !insert_insert_eq, function_ref_eta. reflexivity.
  - erewrite std_swap_callback_spec; cycle 1.
    + simpl. rewrite lookup_insert_ne by congruence. apply lookup_insert_eq.
    + simpl. apply lookup_insert_eq.
    + simpl. f_equal. f_equal. apply map_eq. intros l.
      rewrite !lookup_insert.
      repeat case_decide; subst; try congruence;
        f_equal; apply function_ref_eta.
Qed.

Lemma operator_bool_spec this r w :
  refs w !! this = Some r →
  operator_bool this w = Ok (bool_decide (obj_ r ≠ None)) w.
Proof.
  intros Hr. unfold operator_bool.
  erewrite bind_Ok by (apply load_obj_Ok; exact Hr). reflexivity.
Qed.

Lemma operator_call_spec this r a w :
  refs w !! this = Some r →
  operator_call this a w =
  match callback_ r with
  | Some c => run_lambda c (obj_ r) a w
  | None => Stuck undefined_behaviour
  end.
Proof.
  intros Hr. unfold operator_call.
  erewrite bind_Ok by (apply load_callback_Ok; exact Hr).
  erewrite bind_Ok by (apply load_obj_Ok; exact Hr).
  destruct (callback_ r); reflexivity.
Qed.

(** *** Calls leave the references alone *)

Lemma invoke_set_refs F f a w h :
  invoke F f a (set_refs w h) = with_refs h (invoke F f a w).
Proof.
  unfold invoke. simpl.
  destruct (member_pointer (remove_reference F)).
  - destruct (mem_fn_op F f a (ext w)) as [[x e]|]; reflexivity.
  - destruct (call_op F f a (ext w)) as [[x e]|]; reflexivity.
Qed.

Lemma invoke_refs F f a w x w' :
  invoke F f a w = Ok x w' → refs w' = refs w.
Proof.
  unfold invoke.
  destruct (member_pointer (remove_reference F)).
  - destruct (mem_fn_op F f a (ext w)) as [[y e]|]; [|discriminate].
    intros [= _ <-]. reflexivity.
  - destruct (call_op F f a (ext w)) as [[y e]|]; [|discriminate].
    intros [= _ <-]. reflexivity.
Qed.

Lemma deref_Ok T p v w :
  ext w !! p = Some (T, v) → deref T (Some p) w = Ok p w.
Proof.
  intros Hp. unfold deref. rewrite Hp.
  destruct (decide (T = T)) as [_|Hne]; [reflexivity|congruence].
Qed.

Lemma deref_inv T obj w p w' :
  deref T obj w = Ok p w' → w' = w ∧ obj = Some p.
Proof.
  unfold deref. destruct obj as [q|]; [|discriminate].
  destruct (ext w !! q) as [[T' v]|]; [|discriminate].
  destruct (decide (T' = T)); [|discriminate].
  intros [= <- <-]. split; reflexivity.
Qed.

Lemma deref_set_refs T obj w h :
  deref T obj (set_refs w h) = with_refs h (deref T obj w).
Proof.
  unfold deref. destruct obj as [q|]; [|reflexivity]. simpl.
  destruct (ext w !! q) as [[T' v]|]; [|reflexivity].
  destruct (decide (T' = T)); reflexivity.
Qed.

Lemma run_lambda_set_refs c obj a w h :
  run_lambda c obj a (set_refs w h) = with_refs h (run_lambda c obj a w).
Proof.
  destruct c as [F|T]; simpl; unfold mbind, M_bind;
    rewrite deref_set_refs.
  - destruct (deref (remove_reference F) obj w) as [p w1|e] eqn:Hd; simpl; [|reflexivity].
    apply deref_inv in Hd as [-> _]. apply invoke_set_refs.
  - destruct (deref T obj w) as [p w1|e] eqn:Hd; simpl; [|reflexivity].
    apply deref_inv in Hd as [-> _]. apply invoke_set_refs.
Qed.

Lemma run_lambda_refs c obj a w x w' :
  run_lambda c obj a w = Ok x w' → refs w' = refs w.
Proof.
  destruct c as [F|T]; simpl; intros Hrun;
    apply bind_inv in Hrun as (p & w1 & Hd & Hi);
    apply deref_inv in Hd as [-> _];
    apply invoke_refs in Hi; exact Hi.
Qed.

Lemma operator_call_refs this a w x w' :
  operator_call this a w = Ok x w' → refs w' = refs w.
Proof.
  unfold operator_call. intros Hc.
  apply bind_inv in Hc as (cb & w1 & Hcb & Hc).
  apply bind_inv in Hc as (o & w2 & Ho & Hc).
  unfold load_callback in Hcb. unfold load_obj in Ho.
  destruct (refs w !! this); [|discriminate]. injection Hcb as <- <-.
  destruct (refs w !! this); [|discriminate]. injection Ho as <- <-.
  destruct (callback_ f) as [c|]; [|discriminate].
  eapply run_lambda_refs. exact Hc.
Qed.

Lemma behaviour_with_refs {A : Type} h (o : outcome A) :
  behaviour (with_refs h o) = behaviour o.
Proof. destruct o; reflexivity. Qed.

(** *** The invariant *)

Lemma wf_empty_ref : wf empty_ref.
Proof. unfold wf. simpl. tauto. Qed.

Lemma wf_bound_ref f c : wf (bound_ref f c).
Proof. unfold wf. simpl. split; discriminate. Qed.

Lemma all_wf_insert w l r :
  all_wf w → wf r → all_wf (set_refs w (<[l := r]> (refs w))).
Proof.
  intros Hw Hr l' r'. simpl. rewrite lookup_insert.
  case_decide.
  - intros [= <-]. exact Hr.
  - apply Hw.
Qed.





(** The stores of the three assignments keep the two fields null
    together as well, up to the end of the body. *)
Lemma assignment_bodies_preserve_wf this rhs f cb w w' :
  all_wf w →
  operator_assign_body this rhs w = Ok tt w' ∨
  operator_assign_nullptr_body this w = Ok tt w' ∨
  operator_assign_from_body cb f this w = Ok tt w' →
  all_wf w'.
Proof.
  intros Hw [Hb|[Hb|Hb]].
  - destruct (refs w !! rhs) as [rb|] eqn:Hrhs.
    + destruct (refs w !! this) as [ra|] eqn:Hthis.
      * rewrite (operator_assign_body_spec this rhs ra rb w Hthis Hrhs) in Hb.
        injection Hb as <-. apply all_wf_insert; [exact Hw|exact (Hw rhs rb Hrhs)].
      * exfalso. revert Hb.
        unfold operator_assign_body, mbind, M_bind, load_obj, store_obj.
        rewrite Hrhs, Hthis. discriminate.
    + exfalso. revert Hb. unfold operator_assign_body, mbind, M_bind, load_obj.
      rewrite Hrhs. discriminate.
  - destruct (refs w !! this) as [ra|] eqn:Hthis.
    + rewrite (operator_assign_nullptr_body_spec this ra w Hthis) in Hb.
      injection Hb as <-. apply all_wf_insert; [exact Hw|apply wf_empty_ref].
    + exfalso. revert Hb.
      unfold operator_assign_nullptr_body, mbind, M_bind, store_obj.
      rewrite Hthis. discriminate.
  - destruct (refs w !! this) as [ra|] eqn:Hthis.
    + rewrite (operator_assign_from_body_spec cb f this ra w Hthis) in Hb.
      injection Hb as <-. apply all_wf_insert; [exact Hw|apply wf_bound_ref].
    + exfalso. revert Hb.
      unfold operator_assign_from_body, mbind, M_bind, store_obj.
      rewrite Hthis. discriminate.
Qed.


(** *** The claims *)

(** C1: the converting constructor has no well-formed instance for a
    callable that is [const] or [volatile], nor for any callable when [R]
    is a reference type, although its constraint accepts them.  For every
    other callable [f] the construction succeeds, and the reference invoked
    with [a] does what the call of [f] with [a] does, result and effects, in
    every later state in which the reference still holds this binding and
    [f] is still alive at its address. *)
Theorem bound_call_is_direct_call (F : fwd cty) (f this : addr) (a : Args) w :
  (cv_qualified (remove_reference F) = true ∨ auto_is_R = false →
   function_ref_from F f this w = Stuck ill_formed) ∧
  (cv_qualified (remove_reference F) = false → auto_is_R = true →
   ∃ w1, function_ref_from F f this w = Ok tt w1 ∧
         ∀ w2, refs w2 !! this = refs w1 !! this →
               alive w2 f F →
               operator_call this a w2 =
               match (if member_pointer (remove_reference F)
                      then mem_fn_op F f a (ext w2)
                      else call_op F f a (ext w2)) with
               | Some (y, e) =>
                   Ok y {| refs := refs w2; ext := e; calls := calls w2 ++ [f] |}
               | None => Stuck undefined_behaviour
               end).
Proof.
  split.
  - intros Hbad. apply function_ref_from_ill_formed.
    apply ctor_lambda_for_None. exact Hbad.
  - intros Hcv Hauto.
    pose proof (ctor_lambda_for_Some F Hcv Hauto) as Hwf.
    eexists. split; [apply function_ref_from_spec; exact Hwf|].
    intros w2 Hsame [v Hv]. simpl in Hsame. rewrite lookup_insert_eq in Hsame.
    rewrite (operator_call_spec this _ a w2 Hsame). simpl.
    erewrite bind_Ok by (eapply deref_Ok; exact Hv).
    unfold invoke. destruct (member_pointer (remove_reference F)); reflexivity.
Qed.

(** C2: the four comparisons with [nullptr] never return a boolean,
    whatever call depth they are given; on a default-constructed reference,
    which is empty, [f == nullptr] does not yield [true]. *)
Theorem null_comparisons_never_return (fuel : nat) (this : addr) w :
  let w' := set_refs w (<[this := empty_ref]> (refs w)) in
  function_ref_default this w = Ok tt w' ∧
  is_empty this w' = Some true ∧
  operator_eq_ref_null fuel this w' = Stuck out_of_fuel ∧
  operator_eq_null_ref fuel this w' = Stuck out_of_fuel ∧
  operator_ne_ref_null fuel this w' = Stuck out_of_fuel ∧
  operator_ne_null_ref fuel this w' = Stuck out_of_fuel.
Proof.
  intros w'.
  assert (Heq : ∀ n, operator_eq_ref_null n this w' = Stuck out_of_fuel).
  { induction n as [|n IH]; [reflexivity|exact IH]. }
  assert (Hne : ∀ n, operator_ne_ref_null n this w' = Stuck out_of_fuel).
  { induction n as [|n IH]; [reflexivity|exact IH]. }
  split; [reflexivity|].
  split; [unfold is_empty, w'; simpl; rewrite lookup_insert_eq; reflexivity|].
  split; [apply Heq|].
  split; [destruct fuel; [reflexivity|apply Heq]|].
  split; [apply Hne|].
  destruct fuel; [reflexivity|apply Hne].
Qed.


(** C4: the statements of the copy assignment copy both fields of [b]
    into [a] and leave every other object as it was, but control then
    reaches the end of the body: the call is undefined and no reference to
    [a] is returned.  For a non-const lvalue [b] overload resolution takes
    the assignment from a callable with [F] an lvalue reference instead,
    which has no instance. *)
Theorem copy_assignment_returns_nothing (a b : addr) ra rb w :
  refs w !! a = Some ra → refs w !! b = Some rb →
  operator_assign_body a b w = Ok tt (set_refs w (<[a := rb]> (refs w))) ∧
  operator_assign a b w = Stuck undefined_behaviour ∧
  (∀ T, operator_assign_from (lref T) b a = None).
Proof.
  intros Ha Hb.
  pose proof (operator_assign_body_spec a b ra rb w Ha Hb) as Hbody.
  split; [exact Hbody|]. split; [|reflexivity].
  unfold operator_assign. eapply flows_off_end_after_Ok. exact Hbody.
Qed.

(** C5: [swap] exchanges the two fields of [a] and [b] and touches nothing
    else: no callable is invoked, it cannot fail, a call through [a]
    afterwards behaves as a call through [b] did before and conversely, and
    the free function does the same. *)
Theorem swap_exchanges_behaviour (a b : addr) ra rb (x : Args) w :
  refs w !! a = Some ra → refs w !! b = Some rb →
  ∃ w', swap a b w = Ok tt w' ∧
        free_swap a b w = Ok tt w' ∧
        refs w' !! a = Some rb ∧
        refs w' !! b = Some ra ∧
        (∀ l, l ≠ a → l ≠ b → refs w' !! l = refs w !! l) ∧
        ext w' = ext w ∧
        calls w' = calls w ∧
        behaviour (operator_call a x w') = behaviour (operator_call b x w) ∧
        behaviour (operator_call b x w') = behaviour (operator_call a x w).
Proof.
  intros Ha Hb.
  set (w' := set_refs w (<[b := ra]> (<[a := rb]> (refs w)))).
  assert (Ha' : refs w' !! a = Some rb).
  { simpl. rewrite lookup_insert.
    case_decide; [congruence|apply lookup_insert_eq]. }
  assert (Hb' : refs w' !! b = Some ra) by (simpl; apply lookup_insert_eq).
  exists w'. split; [apply (swap_spec a b ra rb w Ha Hb)|].
  split; [apply (swap_spec a b ra rb w Ha Hb)|].
  split; [exact Ha'|]. split; [exact Hb'|].
  split.
  { intros l Hla Hlb. simpl. rewrite !lookup_insert_ne by congruence. reflexivity. }
  split; [reflexivity|]. split; [reflexivity|].
  split.
  - rewrite (operator_call_spec a rb x w' Ha'), (operator_call_spec b rb x w Hb).
    destruct (callback_ rb) as [c|]; [|reflexivity].
    unfold w'. rewrite run_lambda_set_refs. apply behaviour_with_refs.
  - rewrite (operator_call_spec b ra x w' Hb'), (operator_call_spec a ra x w Ha).
    destruct (callback_ ra) as [c|]; [|reflexivity].
    unfold w'. rewrite run_lambda_set_refs. apply behaviour_with_refs.
Qed.

(** C6: the assignment from an lvalue callable [g] has no instance: the
    lambda in its body names the type [F *] with [F] a reference.  The
    converting constructor, on the same [g], binds the reference (when [g]
    is not [const] and [R] is no reference type, as for any callable). *)
Theorem assignment_from_lvalue_is_ill_formed (T : cty) (g this : addr) w :
  operator_assign_from (lref T) g this = None ∧
  exec (op_assign_from (lref T) g this) w = Stuck ill_formed ∧
  (cv_qualified T = false → auto_is_R = true →
   function_ref_from (lref T) g this w =
   Ok tt (set_refs w (<[this := bound_ref g (ctor_lambda (lref T))]> (refs w)))).
Proof.
  split; [reflexivity|]. split; [reflexivity|].
  intros Hcv Hauto. apply function_ref_from_spec.
  apply ctor_lambda_for_Some; assumption.
Qed.

(** C7: a default-constructed and a [nullptr]-constructed reference has
    both fields null and converts to [false], and the conversion of any
    reference is [true] exactly when its [obj_] is not null.  The statements
    of the assignment of [nullptr] make both fields null, but control then
    reaches the end of the body: the assignment is undefined, and the
    program has no state after it in which to convert the reference. *)
Theorem empty_ref_is_falsy (this : addr) w :
  let w' := set_refs w (<[this := empty_ref]> (refs w)) in
  (function_ref_default this;; operator_bool this) w = Ok false w' ∧
  (function_ref_nullptr this;; operator_bool this) w = Ok false w' ∧
  (∀ r, refs w !! this = Some r →
        operator_assign_nullptr_body this w = Ok tt w' ∧
        operator_assign_nullptr this w = Stuck undefined_behaviour ∧
        (x ← operator_assign_nullptr this; operator_bool this) w =
        Stuck undefined_behaviour) ∧
  (∀ r, refs w !! this = Some r →
        operator_bool this w = Ok (bool_decide (obj_ r ≠ None)) w).
Proof.
  intros w'.
  assert (Hb : operator_bool this w' = Ok false w').
  { erewrite operator_bool_spec by (unfold w'; simpl; apply lookup_insert_eq).
    reflexivity. }
  split; [erewrite bind_Ok by apply function_ref_default_spec; exact Hb|].
  split; [erewrite bind_Ok by apply function_ref_default_spec; exact Hb|].
  split.
  - intros r Hr.
    pose proof (operator_assign_nullptr_body_spec this r w Hr) as Hbody.
    assert (Hub : operator_assign_nullptr this w = Stuck undefined_behaviour).
    { unfold operator_assign_nullptr. eapply flows_off_end_after_Ok. exact Hbody. }
    split; [exact Hbody|]. split; [exact Hub|].
    apply bind_Stuck. exact Hub.
  - intros r Hr. apply operator_bool_spec. exact Hr.
Qed.

(** C9: a reference bound by the converting constructor converts to
    [true], whatever the object at the bound address is, a null function
    pointer included: [obj_] holds the address of that object.  The
    assignment from a callable stores that address too, but control then
    reaches the end of its body: the assignment is undefined, and the
    program has no state after it in which the reference converts to
    [true]. *)
Theorem bound_ref_is_truthy (F : fwd cty) (f this : addr) w :
  (cv_qualified (remove_reference F) = false → auto_is_R = true →
   ∃ w', (function_ref_from F f this;; operator_bool this) w = Ok true w' ∧
         (obj_ <$> refs w' !! this) = Some (Some f)) ∧
  (∀ r m, refs w !! this = Some r →
          operator_assign_from F f this = Some m →
          m w = Stuck undefined_behaviour ∧
          (x ← m; operator_bool this) w = Stuck undefined_behaviour).
Proof.
  split.
  - intros Hcv Hauto.
    pose proof (ctor_lambda_for_Some F Hcv Hauto) as Hwf.
    eexists. split.
    + erewrite bind_Ok by (apply function_ref_from_spec; exact Hwf).
      erewrite operator_bool_spec by (simpl; apply lookup_insert_eq).
      reflexivity.
    + simpl. rewrite lookup_insert_eq. reflexivity.
  - intros r m Hr Hm. unfold operator_assign_from in Hm.
    destruct (assign_lambda_for F) as [cb|]; [|discriminate Hm].
    injection Hm as <-.
    assert (Hub : (operator_assign_from_body cb f this;; flows_off_end (A := addr)) w
                  = Stuck undefined_behaviour).
    { eapply flows_off_end_after_Ok.
      apply (operator_assign_from_body_spec cb f this r w Hr). }
    split; [exact Hub|]. apply bind_Stuck. exact Hub.
Qed.

(** C10: the member [swap] done twice gives back the state it started
    from, and a reference swapped with itself is unchanged. *)
Theorem swap_involution (a b : addr) ra rb w :
  refs w !! a = Some ra → refs w !! b = Some rb →
  (swap a b;; swap a b) w = Ok tt w ∧ swap a a w = Ok tt w.
Proof.
  intros Ha Hb. split.
  - rewrite (bind_Ok (swap a b) _ w tt _ (swap_spec a b ra rb w Ha Hb)).
    erewrite (swap_spec a b rb ra); cycle 1.
    + simpl. rewrite lookup_insert. case_decide; [congruence|apply lookup_insert_eq].
    + simpl. apply lookup_insert_eq.
    + rewrite set_refs_twice. f_equal. apply set_refs_same.
      simpl. apply map_eq. intros l. rewrite !lookup_insert.
      repeat case_decide; subst; congruence.
  - rewrite (swap_spec a a ra ra w Ha Ha).
    rewrite insert_insert_eq, (insert_id _ _ _ Ha), set_refs_id. reflexivity.
Qed.

End FunctionRefProperties.

(** ** The claims on the concrete program *)

Local Open Scope positive_scope.

(** [function_ref<int(int)> r = plus_one; r(41)] is [42], and the call is
    logged as a call of the closure at address 10.  The same with the
    [const] closure at address 13, or under the signature [int &(int)], is
    ill-formed. *)
Lemma bound_call_is_direct_call_witness :
  (∃ w1, function_ref_from (C := demo) (lref PlusOne) 10 1 (initial (C := demo) demo_ext)
         = Ok tt w1 ∧
         behaviour (operator_call (C := demo) 1 41%Z w1) =
         inr (42%Z, demo_ext, [10%positive])) ∧
  function_ref_from (C := demo) (lref ConstPlusOne) 13 1 (initial (C := demo) demo_ext)
  = Stuck ill_formed ∧
  function_ref_from (C := demo_ref_result) (lref PlusOne) 10 1
    (initial (C := demo_ref_result) demo_ext)
  = Stuck ill_formed.
Proof.
  split; [|split].
  - destruct (bound_call_is_direct_call (C := demo) (lref PlusOne) 10 1 41%Z
                (initial (C := demo) demo_ext)) as [_ Hgood].
    destruct (Hgood eq_refl eq_refl) as (w1 & Hctor & Hcall).
    exists w1. split; [exact Hctor|].
    rewrite (Hcall w1 eq_refl).
    + vm_compute in Hctor. injection Hctor as <-. vm_compute. reflexivity.
    + vm_compute in Hctor. injection Hctor as <-.
      exists no_state. vm_compute. reflexivity.
  - apply (bound_call_is_direct_call (C := demo) (lref ConstPlusOne) 13 1 0%Z
             (initial (C := demo) demo_ext)).
    left. reflexivity.
  - apply (bound_call_is_direct_call (C := demo_ref_result) (lref PlusOne) 10 1 0%Z
             (initial (C := demo_ref_result) demo_ext)).
    right. reflexivity.
Defined.


(** [r1 = r2] on the two references of [demo_world]. *)
Lemma copy_assignment_returns_nothing_witness :
  refs demo_world !! 1%positive = Some (demo_bound 10 PlusOne) ∧
  refs demo_world !! 2%positive = Some (demo_bound 11 TimesTwo) ∧
  operator_assign_body (C := demo) 1 2 demo_world =
  Ok tt (set_refs demo_world (<[1%positive := demo_bound 11 TimesTwo]> (refs demo_world))) ∧
  operator_assign (C := demo) 1 2 demo_world = Stuck undefined_behaviour.
Proof.
  split; [reflexivity|]. split; [reflexivity|].
  destruct (copy_assignment_returns_nothing (C := demo) 1 2
              (demo_bound 10 PlusOne) (demo_bound 11 TimesTwo) demo_world
              eq_refl eq_refl) as (Hbody & Hub & _).
  split; [exact Hbody|exact Hub].
Defined.

(** After [r1.swap(r2)], [r1(42)] doubles and [r2(41)] adds one. *)
Lemma swap_exchanges_behaviour_witness :
  ∃ w', swap (C := demo) 1 2 demo_world = Ok tt w' ∧
        behaviour (operator_call (C := demo) 1 42%Z w') =
        inr (84%Z, demo_ext, [11%positive]).
Proof.
  destruct (swap_exchanges_behaviour (C := demo) 1 2
              (demo_bound 10 PlusOne) (demo_bound 11 TimesTwo) 42%Z demo_world
              eq_refl eq_refl)
    as (w' & Hswap & _ & _ & _ & _ & _ & _ & Hcall & _).
  exists w'. split; [exact Hswap|].
  rewrite Hcall. vm_compute. reflexivity.
Defined.

(** [r1 = times_two] with the closure at address 11 an lvalue has no
    instance; [function_ref<int(int)> r3 = times_two] binds it. *)
Lemma assignment_from_lvalue_is_ill_formed_witness :
  operator_assign_from (C := demo) (lref TimesTwo) 11 1 = None ∧
  function_ref_from (C := demo) (lref TimesTwo) 11 3 demo_world =
  Ok tt (set_refs demo_world
           (<[3%positive := demo_bound 11 TimesTwo]> (refs demo_world))).
Proof.
  destruct (assignment_from_lvalue_is_ill_formed (C := demo) TimesTwo 11 1 demo_world)
    as (Hnone & _ & _).
  destruct (assignment_from_lvalue_is_ill_formed (C := demo) TimesTwo 11 3 demo_world)
    as (_ & _ & Hctor).
  split; [exact Hnone|]. apply Hctor; reflexivity.
Defined.

(** [r1 = nullptr] is undefined; before it, [r1] converts to [true]. *)
Lemma empty_ref_is_falsy_witness :
  operator_assign_nullptr_body (C := demo) 1 demo_world =
  Ok tt (set_refs demo_world (<[1%positive := empty_ref]> (refs demo_world))) ∧
  operator_assign_nullptr (C := demo) 1 demo_world = Stuck undefined_behaviour ∧
  operator_bool (C := demo) 1 demo_world = Ok true demo_world.
Proof.
  destruct (empty_ref_is_falsy (C := demo) 1 demo_world) as (_ & _ & Hassign & Hbool).
  destruct (Hassign (demo_bound 10 PlusOne) eq_refl) as (Hbody & Hub & _).
  split; [exact Hbody|]. split; [exact Hub|].
  apply (Hbool (demo_bound 10 PlusOne)). reflexivity.
Defined.

(** A reference bound by the constructor to the null function pointer
    variable at address 12 converts to [true], and calling it is undefined;
    the assignment of that variable, as an rvalue, to [r1] is undefined. *)
Lemma bound_ref_is_truthy_witness :
  (∃ w', (function_ref_from (C := demo) (lref FnPtr) 12 3;; operator_bool 3) demo_world
         = Ok true w' ∧
         operator_call (C := demo) 3 0%Z w' = Stuck undefined_behaviour) ∧
  (∃ m, operator_assign_from (C := demo) (rval FnPtr) 12 1 = Some m ∧
        m demo_world = Stuck undefined_behaviour).
Proof.
  split.
  - destruct (bound_ref_is_truthy (C := demo) (lref FnPtr) 12 3 demo_world)
      as [Hctor _].
    destruct (Hctor eq_refl eq_refl) as (w' & Hbool & _).
    exists w'. split; [exact Hbool|].
    vm_compute in Hbool. injection Hbool as <-. vm_compute. reflexivity.
  - destruct (bound_ref_is_truthy (C := demo) (rval FnPtr) 12 1 demo_world)
      as [_ Hassign].
    eexists. split; [reflexivity|].
    apply (Hassign (demo_bound 10 PlusOne) _ eq_refl eq_refl).
Defined.

(** Swapping the two references of [demo_world] twice, and one with
    itself. *)
Lemma swap_involution_witness :
  (swap (C := demo) 1 2;; swap (C := demo) 1 2) demo_world = Ok tt demo_world ∧
  swap (C := demo) 1 1 demo_world = Ok tt demo_world.
Proof.
  apply (swap_involution (C := demo) 1 2
           (demo_bound 10 PlusOne) (demo_bound 11 TimesTwo) demo_world);
    reflexivity.
Defined.

Local Close Scope positive_scope.

(** ** Further properties of the compile-time layer *)

Section TraitsFurther.
Context `{TS : TypeSystem}.

(** When argument-dependent lookup does not add [std::invoke], the trait is
    decided through exactly one of the two [invoke] templates, chosen by
    [is_member_pointer<decay_t<F>>]: the [std::mem_fn] call for a member
    pointer and the plain call for anything else.  When it does, and
    [std::invoke] is viable beside one of the two, the call is ambiguous and
    the trait has no value. *)
Theorem is_invocable_r_follows_overload (R F : ty) (As : list ty) :
  (adl_finds_std_invoke F As = false →
   is_invocable_r R F As =
   T ← (if is_member_pointer (decay F)
        then mem_fn_call_type F As else call_type F As);
   Some (bool_decide (T = R))) ∧
  (adl_finds_std_invoke F As = true →
   is_Some (if is_member_pointer (decay F)
            then mem_fn_call_type F As else call_type F As) →
   is_Some (std_invoke_type F As) →
   is_invocable_r R F As = None).
Proof.
  split.
  - intros Hadl. rewrite <- (invoke_type_by_kind F As Hadl).
    destruct (invoke_type F As) as [T|] eqn:HT.
    + apply is_invocable_r_some. exact HT.
    + apply is_invocable_r_none. exact HT.
  - intros Hadl Hdetail Hstd. apply is_invocable_r_none.
    apply invoke_type_ambiguous; assumption.
Qed.


(** At most one result type satisfies the trait for given [F] and
    [Args...]: the result type is matched exactly, never converted. *)
Theorem result_type_is_unique (R1 R2 F : ty) (As : list ty) :
  is_invocable_r R1 F As = Some true →
  is_invocable_r R2 F As = Some true →
  R1 = R2.
Proof.
  destruct (invoke_type F As) as [T|] eqn:HT.
  - rewrite (is_invocable_r_some R1 F T As HT), (is_invocable_r_some R2 F T As HT).
    intros [= H1] [= H2].
    apply bool_decide_eq_true in H1. apply bool_decide_eq_true in H2. congruence.
  - rewrite (is_invocable_r_none R1 F As HT). discriminate.
Qed.

End TraitsFurther.

(** A pointer to a member function goes through [std::mem_fn], the closure
    through the plain call, and [std::function<int(int)>], for which
    [std::invoke] is found too, has no value. *)
Lemma is_invocable_r_follows_overload_witness :
  is_invocable_r (TS := cxx) Int MemFn [Class; Int] = Some true ∧
  is_invocable_r (TS := cxx) Int Closure [Int] = Some true ∧
  is_invocable_r (TS := cxx) Int StdFunction [Int] = None.
Proof.
  destruct (is_invocable_r_follows_overload (TS := cxx) Int MemFn [Class; Int])
    as [Hm _].
  destruct (is_invocable_r_follows_overload (TS := cxx) Int Closure [Int])
    as [Hc _].
  destruct (is_invocable_r_follows_overload (TS := cxx) Int StdFunction [Int])
    as [_ Hs].
  split; [rewrite (Hm eq_refl); reflexivity|].
  split; [rewrite (Hc eq_refl); reflexivity|].
  apply Hs; [reflexivity|eexists; reflexivity|eexists; reflexivity].
Defined.


(** The closure is callable as [int(int)]. *)
Lemma result_type_is_unique_witness :
  is_invocable_r (TS := cxx) Int Closure [Int] = Some true ∧ Int = Int.
Proof.
  split; [reflexivity|].
  apply (result_type_is_unique (TS := cxx) Int Int Closure [Int]); reflexivity.
Defined.

(** ** Further properties of the run-time layer *)

Section FunctionRefFurther.
Context `{C : Callables}.
Implicit Types (w : world) (r : function_ref) (h : gmap addr function_ref).
Implicit Types (l this rhs f g : addr).

(** *** Computations that call nothing *)

Lemma quiet_ret {A : Type} (a : A) : quiet (mret a : M A).
Proof. intros w b w' [= _ <-]. split; reflexivity. Qed.

Lemma quiet_stuck {A : Type} e : quiet (stuck e : M A).
Proof. intros w b w' Hs. discriminate Hs. Qed.

Lemma quiet_bind {A B : Type} (m : M A) (k : A → M B) :
  quiet m → (∀ a, quiet (k a)) → quiet (m ≫= k).
Proof.
  intros Hm Hk w b w2 Hrun.
  apply bind_inv in Hrun as (a & w1 & H1 & H2).
  destruct (Hm w a w1 H1) as [He Hc]. destruct (Hk a w1 b w2 H2) as [He' Hc'].
  split; congruence.
Qed.

Lemma quiet_load_obj l : quiet (load_obj l).
Proof.
  intros w a w'. unfold load_obj. destruct (refs w !! l); [|discriminate].
  intros [= _ <-]. split; reflexivity.
Qed.

Lemma quiet_load_callback l : quiet (load_callback l).
Proof.
  intros w a w'. unfold load_callback. destruct (refs w !! l); [|discriminate].
  intros [= _ <-]. split; reflexivity.
Qed.

Lemma quiet_store_obj l v : quiet (store_obj l v).
Proof.
  intros w a w'. unfold store_obj. destruct (refs w !! l); [|discriminate].
  intros [= _ <-]. split; reflexivity.
Qed.

Lemma quiet_store_callback l v : quiet (store_callback l v).
Proof.
  intros w a w'. unfold store_callback. destruct (refs w !! l); [|discriminate].
  intros [= _ <-]. split; reflexivity.
Qed.

Lemma quiet_construct this r : quiet (construct this r).
Proof. intros w a w' [= _ <-]. split; reflexivity. Qed.

Lemma quiet_swap this rhs : quiet (swap this rhs).
Proof.
  unfold swap, std_swap_obj, std_swap_callback.
  repeat first
    [ apply quiet_bind; [|intros ?] | apply quiet_ret
    | apply quiet_load_obj | apply quiet_load_callback
    | apply quiet_store_obj | apply quiet_store_callback ].
Qed.

(** *** Computations that write only their operands *)

Lemma writes_only_ret {A : Type} S (a : A) : writes_only S (mret a : M A).
Proof. intros w b w' [= _ <-] l _. reflexivity. Qed.

Lemma writes_only_stuck {A : Type} S e : writes_only S (stuck e : M A).
Proof. intros w b w' Hs. discriminate Hs. Qed.

Lemma writes_only_bind {A B : Type} S (m : M A) (k : A → M B) :
  writes_only S m → (∀ a, writes_only S (k a)) → writes_only S (m ≫= k).
Proof.
  intros Hm Hk w b w2 Hrun l Hl.
  apply bind_inv in Hrun as (a & w1 & H1 & H2).
  rewrite (Hk a w1 b w2 H2 l Hl). apply (Hm w a w1 H1 l Hl).
Qed.

Lemma writes_only_load_obj S l : writes_only S (load_obj l).
Proof.
  intros w a w'. unfold load_obj. destruct (refs w !! l); [|discriminate].
  intros [= _ <-] l' _. reflexivity.
Qed.

Lemma writes_only_load_callback S l : writes_only S (load_callback l).
Proof.
  intros w a w'. unfold load_callback. destruct (refs w !! l); [|discriminate].
  intros [= _ <-] l' _. reflexivity.
Qed.

Lemma writes_only_store_obj S l v : l ∈ S → writes_only S (store_obj l v).
Proof.
  intros Hin w a w'. unfold store_obj. destruct (refs w !! l); [|discriminate].
  intros [= _ <-] l' Hl'. simpl. apply lookup_insert_ne. congruence.
Qed.

Lemma writes_only_store_callback S l v : l ∈ S → writes_only S (store_callback l v).
Proof.
  intros Hin w a w'. unfold store_callback. destruct (refs w !! l); [|discriminate].
  intros [= _ <-] l' Hl'. simpl. apply lookup_insert_ne. congruence.
Qed.

Lemma writes_only_construct S this r : this ∈ S → writes_only S (construct this r).
Proof.
  intros Hin w a w' [= _ <-] l' Hl'. simpl. apply lookup_insert_ne. congruence.
Qed.

Lemma writes_only_call this a : writes_only [] (operator_call this a).
Proof.
  intros w x w' Hcall l _. rewrite (operator_call_refs this a w x w' Hcall).
  reflexivity.
Qed.

(** *** Copies, symmetry of swap *)

(** A copy-constructed reference holds the fields of its source, empty or
    not; the source and everything outside are untouched; the copy converts
    to the same boolean and a call through it behaves as a call through the
    source. *)
Theorem copy_behaves_as_source this rhs r (x : Args) w :
  refs w !! rhs = Some r →
  ∃ w', function_ref_copy this rhs w = Ok tt w' ∧
        refs w' !! this = Some r ∧
        refs w' !! rhs = Some r ∧
        ext w' = ext w ∧
        calls w' = calls w ∧
        operator_bool this w' = Ok (bool_decide (obj_ r ≠ None)) w' ∧
        behaviour (operator_call this x w') = behaviour (operator_call rhs x w).
Proof.
  intros Hr.
  set (w' := set_refs w (<[this := r]> (refs w))).
  assert (Hthis : refs w' !! this = Some r) by (simpl; apply lookup_insert_eq).
  exists w'. split; [apply function_ref_copy_spec; exact Hr|].
  split; [exact Hthis|].
  split.
  { simpl. rewrite lookup_insert. case_decide; [reflexivity|exact Hr]. }
  split; [reflexivity|]. split; [reflexivity|].
  split; [apply operator_bool_spec; exact Hthis|].
  rewrite (operator_call_spec this r x w' Hthis), (operator_call_spec rhs r x w Hr).
  destruct (callback_ r) as [c|]; [|reflexivity].
  unfold w'. rewrite run_lambda_set_refs. apply behaviour_with_refs.
Qed.

(** [a.swap(b)] and [b.swap(a)] end in the same state. *)
Theorem swap_symmetric (a b : addr) ra rb w :
  refs w !! a = Some ra → refs w !! b = Some rb →
  swap a b w = swap b a w.
Proof.
  intros Ha Hb.
  rewrite (swap_spec a b ra rb w Ha Hb), (swap_spec b a rb ra w Hb Ha).
  f_equal. f_equal. apply map_eq. intros l. rewrite !lookup_insert.
  repeat case_decide; subst; congruence.
Qed.

(** *** Truthiness and calls *)

(** While the two fields are null together, [operator bool] tells whether
    a call goes through a null [callback_]: a reference that converts to
    [false] cannot be called, and a call through one that converts to [true]
    runs the lambda stored in it on the address stored in it. *)
Theorem truthiness_guards_call this r (x : Args) w :
  all_wf w → refs w !! this = Some r →
  (operator_bool this w = Ok false w →
   operator_call this x w = Stuck undefined_behaviour) ∧
  (operator_bool this w = Ok true w →
   ∃ f c, r = bound_ref f c ∧
          operator_call this x w = run_lambda c (Some f) x w).
Proof.
  intros Hw Hr. pose proof (Hw this r Hr) as [Hoc Hco].
  rewrite (operator_bool_spec this r w Hr), (operator_call_spec this r x w Hr).
  destruct r as [[f|] [c|]]; simpl in *.
  - split; [intros Hb|intros _].
    + exfalso. cbv in Hb. discriminate Hb.
    + exists f, c. split; reflexivity.
  - discriminate (Hco eq_refl).
  - discriminate (Hoc eq_refl).
  - split; [reflexivity|intros Hb].
    exfalso. cbv in Hb. discriminate Hb.
Qed.

(** A bound reference whose callable is gone still converts to [true], and
    a call through it is undefined: nothing in the reference tracks the
    lifetime of the callable. *)
Theorem dangling_call_is_undefined this f c (x : Args) w :
  refs w !! this = Some (bound_ref f c) →
  ext w !! f = None →
  operator_bool this w = Ok true w ∧
  operator_call this x w = Stuck undefined_behaviour.
Proof.
  intros Hr Hf. split.
  - rewrite (operator_bool_spec this _ w Hr). reflexivity.
  - rewrite (operator_call_spec this _ x w Hr). simpl.
    destruct c as [F|T]; simpl; unfold mbind, M_bind, deref; rewrite Hf;
      reflexivity.
Qed.

Lemma operator_call_inv this (x : Args) w y w' :
  operator_call this x w = Ok y w' →
  ∃ f c, refs w !! this = Some (bound_ref f c) ∧
         calls w' = calls w ++ [f] ∧
         refs w' = refs w.
Proof.
  intros Hcall.
  pose proof (operator_call_refs this x w y w' Hcall) as Hrefs.
  destruct (refs w !! this) as [r|] eqn:Hr.
  - rewrite (operator_call_spec this r x w Hr) in Hcall.
    destruct r as [o [c|]]; simpl in Hcall; [|discriminate].
    assert (Hlog : ∀ F p, invoke F p x w = Ok y w' → calls w' = calls w ++ [p]).
    { intros F p. unfold invoke.
      destruct (member_pointer (remove_reference F)).
      - destruct (mem_fn_op F p x (ext w)) as [[z e]|]; [|discriminate].
        intros [= _ <-]. reflexivity.
      - destruct (call_op F p x (ext w)) as [[z e]|]; [|discriminate].
        intros [= _ <-]. reflexivity. }
    destruct c as [F|T]; simpl in Hcall;
      apply bind_inv in Hcall as (p & w1 & Hd & Hi);
      apply deref_inv in Hd as [-> ->];
      exists p; eexists; (split; [reflexivity|]);
      (split; [eapply Hlog; exact Hi|exact Hrefs]).
  - exfalso. revert Hcall. unfold operator_call, mbind, M_bind, load_callback.
    rewrite Hr. discriminate.
Qed.

(** A call that returns has called exactly one callable, the one at the
    address in [obj_], once, and has changed no [function_ref]. *)
Theorem call_invokes_target_once this (x : Args) w y w' :
  operator_call this x w = Ok y w' →
  ∃ f c, refs w !! this = Some (bound_ref f c) ∧
         calls w' = calls w ++ [f] ∧
         refs w' = refs w.
Proof. apply operator_call_inv. Qed.

(** *** Which operations call, and what they write *)

Lemma quiet_flows_off_end {A : Type} : quiet (flows_off_end : M A).
Proof. apply quiet_stuck. Qed.

Lemma exec_quiet (o : op) : is_call o = false → quiet (exec o).
Proof.
  intros Hcall.
  destruct o as [this|this|this rhs|F f this|this rhs|this
                |F f this|this rhs|this rhs|this|this a];
    try discriminate Hcall; simpl;
    unfold function_ref_nullptr, function_ref_default, function_ref_copy,
      function_ref_from, operator_assign, operator_assign_body,
      operator_assign_nullptr, operator_assign_nullptr_body,
      operator_assign_from, operator_assign_from_body,
      free_swap, operator_bool;
    try (destruct (ctor_lambda_for F));
    try (destruct (assign_lambda_for F); simpl);
    repeat first
      [ apply quiet_bind; [|intros ?] | apply quiet_ret | apply quiet_stuck
      | apply quiet_flows_off_end
      | apply quiet_swap | apply quiet_construct
      | apply quiet_load_obj | apply quiet_load_callback
      | apply quiet_store_obj | apply quiet_store_callback ].
Qed.

Lemma writes_only_flows_off_end {A : Type} S : writes_only S (flows_off_end : M A).
Proof. apply writes_only_stuck. Qed.

Lemma exec_writes_only (o : op) : writes_only (footprint o) (exec o).
Proof.
  destruct o as [this|this|this rhs|F f this|this rhs|this
                |F f this|this rhs|this rhs|this|this a];
    simpl;
    try (apply writes_only_bind;
         [apply writes_only_call|intros ?; apply writes_only_ret]);
    unfold function_ref_nullptr, function_ref_default, function_ref_copy,
      function_ref_from, operator_assign, operator_assign_body,
      operator_assign_nullptr, operator_assign_nullptr_body,
      operator_assign_from, operator_assign_from_body,
      free_swap, swap, std_swap_obj, std_swap_callback, operator_bool;
    try (destruct (ctor_lambda_for F));
    try (destruct (assign_lambda_for F); simpl);
    repeat first
      [ apply writes_only_bind; [|intros ?]
      | apply writes_only_ret | apply writes_only_stuck
      | apply writes_only_flows_off_end
      | apply writes_only_load_obj | apply writes_only_load_callback
      | apply writes_only_construct; repeat constructor
      | apply writes_only_store_obj; repeat constructor
      | apply writes_only_store_callback; repeat constructor ].
Qed.

(** Only [operator()] calls a callable: every other operation that
    returns, the converting constructor included, leaves the objects outside
    the references and the call log as they were. *)
Theorem only_call_invokes (o : op) w w' :
  is_call o = false → exec o w = Ok tt w' →
  ext w' = ext w ∧ calls w' = calls w.
Proof. intros Hcall Hexec. exact (exec_quiet o Hcall w tt w' Hexec). Qed.

(** An operation changes no [function_ref] besides the object it
    constructs or is called on, and for the swaps its other operand: the
    source of a copy keeps its binding, and the boolean conversion and the
    call change no reference at all. *)
Theorem operations_write_their_operands_only (o : op) w w' l :
  exec o w = Ok tt w' → l ∉ footprint o →
  refs w' !! l = refs w !! l.
Proof. intros Hexec Hl. exact (exec_writes_only o w tt w' Hexec l Hl). Qed.

(** *** Calls in sequence *)

Lemma bound_call_eq F f this (a : Args) w :
  refs w !! this = Some (bound_ref f (ctor_lambda F)) →
  alive w f F →
  operator_call this a w = invoke F f a w.
Proof.
  intros Hr [v Hv]. rewrite (operator_call_spec this _ a w Hr). simpl.
  erewrite bind_Ok by (eapply deref_Ok; exact Hv). reflexivity.
Qed.

(** Two calls through a bound reference are two calls of the callable, the
    second in the state the first one left: nothing is cached in the
    reference.  The callable must survive its first call. *)
Theorem successive_calls_compose F f this (a b : Args) w :
  refs w !! this = Some (bound_ref f (ctor_lambda F)) →
  alive w f F →
  (∀ y w1, invoke F f a w = Ok y w1 → alive w1 f F) →
  (x ← operator_call this a; y ← operator_call this b; mret (x, y)) w =
  (x ← invoke F f a; y ← invoke F f b; mret (x, y)) w.
Proof.
  intros Hr Hlive Hkeep.
  pose proof (bound_call_eq F f this a w Hr Hlive) as Hfirst.
  destruct (invoke F f a w) as [x w1|e] eqn:Hinv.
  - rewrite (bind_Ok (operator_call this a) _ w x w1 Hfirst).
    rewrite (bind_Ok (invoke F f a) _ w x w1 Hinv).
    assert (Hr1 : refs w1 !! this = Some (bound_ref f (ctor_lambda F))).
    { rewrite (invoke_refs F f a w x w1 Hinv). exact Hr. }
    pose proof (bound_call_eq F f this b w1 Hr1 (Hkeep x w1 eq_refl)) as Hsecond.
    unfold mbind, M_bind. rewrite Hsecond. reflexivity.
  - rewrite (bind_Stuck (operator_call this a) _ w e Hfirst).
    rewrite (bind_Stuck (invoke F f a) _ w e Hinv). reflexivity.
Qed.

End FunctionRefFurther.

(** ** The further properties on the concrete program *)

Local Open Scope positive_scope.

(** A copy of the first reference of [demo_world] at address 3. *)
Lemma copy_behaves_as_source_witness :
  ∃ w', function_ref_copy (C := demo) 3 1 demo_world = Ok tt w' ∧
        behaviour (operator_call (C := demo) 3 41%Z w') =
        inr (42%Z, demo_ext, [10]).
Proof.
  destruct (copy_behaves_as_source (C := demo) 3 1 (demo_bound 10 PlusOne)
              41%Z demo_world eq_refl)
    as (w' & Hcopy & _ & _ & _ & _ & _ & Hcall).
  exists w'. split; [exact Hcopy|].
  rewrite Hcall. vm_compute. reflexivity.
Defined.

(** [r1.swap(r2)] and [r2.swap(r1)]. *)
Lemma swap_symmetric_witness :
  swap (C := demo) 1 2 demo_world = swap (C := demo) 2 1 demo_world.
Proof.
  apply (swap_symmetric (C := demo) 1 2
           (demo_bound 10 PlusOne) (demo_bound 11 TimesTwo));
    reflexivity.
Defined.

Lemma demo_world_wf : all_wf (C := demo) demo_world.
Proof.
  intros l r. unfold demo_world. simpl.
  rewrite lookup_insert. case_decide; [intros [= <-]; apply wf_bound_ref|].
  rewrite lookup_singleton. case_decide; [intros [= <-]; apply wf_bound_ref|].
  discriminate.
Qed.

(** The first reference of [demo_world] converts to [true], and the call
    runs its lambda. *)
Lemma truthiness_guards_call_witness :
  operator_bool (C := demo) 1 demo_world = Ok true demo_world ∧
  operator_call (C := demo) 1 41%Z demo_world =
  run_lambda (C := demo) (ctor_lambda (C := demo) (lref PlusOne)) (Some 10) 41%Z
    demo_world.
Proof.
  destruct (truthiness_guards_call (C := demo) 1 (demo_bound 10 PlusOne) 41%Z
              demo_world demo_world_wf eq_refl) as [_ Htrue].
  split; [reflexivity|].
  destruct (Htrue eq_refl) as (f & c & Hfc & Hcall).
  rewrite Hcall. injection Hfc as <- <-. reflexivity.
Defined.

(** In [demo_dangling] the first reference is still bound, and calling it
    is undefined. *)
Lemma dangling_call_is_undefined_witness :
  operator_bool (C := demo) 1 demo_dangling = Ok true demo_dangling ∧
  operator_call (C := demo) 1 41%Z demo_dangling = Stuck undefined_behaviour.
Proof.
  apply (dangling_call_is_undefined (C := demo) 1 10
           (ctor_lambda (C := demo) (lref PlusOne)) 41%Z demo_dangling);
    reflexivity.
Defined.

(** [r1(41)] in [demo_world] logs one call, of the closure at 10. *)
Lemma call_invokes_target_once_witness :
  ∃ w', operator_call (C := demo) 1 41%Z demo_world = Ok 42%Z w' ∧
        calls w' = [10] ∧
        refs w' = refs demo_world.
Proof.
  eexists. split; [vm_compute; reflexivity|].
  match goal with
  | |- calls ?w' = _ ∧ _ =>
      destruct (call_invokes_target_once (C := demo) 1 41%Z demo_world 42%Z w'
                  eq_refl) as (f & c & Hf & Hlog & Hrefs)
  end.
  split; [|exact Hrefs].
  rewrite Hlog. vm_compute in Hf. injection Hf as <- _. reflexivity.
Defined.

(** [r1.swap(r2)] calls nothing. *)
Lemma only_call_invokes_witness :
  ∃ w', exec (C := demo) (op_swap (C := demo) 1 2) demo_world = Ok tt w' ∧
        ext w' = ext demo_world ∧ calls w' = calls demo_world.
Proof.
  eexists. split; [vm_compute; reflexivity|].
  match goal with
  | |- ext ?w' = _ ∧ _ =>
      apply (only_call_invokes (C := demo) (op_swap (C := demo) 1 2)
               demo_world w' eq_refl eq_refl)
  end.
Defined.

(** Copying [r2] into a new reference at address 3 leaves [r2] as it
    was. *)
Lemma operations_write_their_operands_only_witness :
  ∃ w', exec (C := demo) (op_copy (C := demo) 3 2) demo_world = Ok tt w' ∧
        refs w' !! 2 = refs demo_world !! 2.
Proof.
  eexists. split; [vm_compute; reflexivity|].
  match goal with
  | |- refs ?w' !! _ = _ =>
      apply (operations_write_their_operands_only (C := demo)
               (op_copy (C := demo) 3 2) demo_world w' 2 eq_refl)
  end.
  simpl. intros Hin. apply list_elem_of_singleton in Hin. discriminate Hin.
Defined.

(** Two calls through the first reference of [demo_world]. *)
Lemma successive_calls_compose_witness :
  (x ← operator_call (C := demo) 1 41%Z;
   y ← operator_call (C := demo) 1 7%Z;
   mret (x, y)) demo_world =
  (x ← invoke (C := demo) (lref PlusOne) 10 41%Z;
   y ← invoke (C := demo) (lref PlusOne) 10 7%Z;
   mret (x, y)) demo_world.
Proof.
  apply (successive_calls_compose (C := demo) (lref PlusOne) 10 1 41%Z 7%Z demo_world).
  - reflexivity.
  - exists no_state. reflexivity.
  - intros y w1 Hinv. vm_compute in Hinv. injection Hinv as _ <-.
    exists no_state. reflexivity.
Defined.
